(** * c-capnproto: the bounds-checked struct accessors of [capn.h]

    A shallow embedding of the inline half of [capn.h]: the byte-order
    helpers [capn_flip8/16/32/64], the struct field accessors
    [capn_read8/16/32/64] and [capn_write8/16/32/64], and the float and double
    accessors built on them.

    Conventions of the embedding.
    - [int] and the 19-bit bit-field [datasz] are integers of [Z].  In
      [off+N <= p.datasz] the bit-field is promoted to [int], so the comparison
      is the signed one, and the sum [off+N] is computed in [int]: when it
      exceeds [INT_MAX] it wraps around to the negative numbers
      ([int_add]), as two's complement hardware computes it.
    - [uintN_t] values are integers of [Z]; the conversion [(uint8_t) x] is
      [byte.of_Z x], reduction modulo 256.
    - [char *] is an address of [Z]; memory is a total map from addresses to
      bytes, one address space for everything.  A segment header is the
      [struct capn_segment] laid out at its address ([segments]), so a store
      that lands on those bytes changes the header.
    - A typed access [*(uintN_t * ) a] and the members of a [union] go through
      the object representation of the host, which is little- or big-endian:
      every definition is parametric in the [Host], which also fixes the
      size of a pointer.  Floating-point objects use the byte order of the
      integers; alignment traps are not modelled. *)

From Stdlib Require Import ZArith List Lia Bool FunctionalExtensionality.
From coqutil Require Import Byte Word.LittleEndianList.
Import ListNotations.
Local Open Scope Z_scope.

(** ** Data model *)

Inductive CAPN_TYPE : Set :=
| CAPN_NULL
| CAPN_STRUCT
| CAPN_LIST
| CAPN_PTR_LIST
| CAPN_BIT_LIST.

(** [struct capn_tree]; pointers are addresses, 0 is [NULL]. *)
Record capn_tree : Set := {
  parent : Z;
  link0 : Z;
  link1 : Z;
  red : bool
}.

(** [struct capn_segment]; the fields [id], [data], [len] and [cap] of the
    source carry the prefix [seg_] here, [data] being a field of [capn_ptr]
    too. *)
Record capn_segment : Set := {
  hdr : capn_tree;
  next : Z;
  capn : Z;
  seg_id : Z;
  seg_data : Z;
  seg_len : Z;
  seg_cap : Z
}.

(** [struct capn_ptr]; [seg] is the address of the owning segment header. *)
Record capn_ptr : Set := {
  type : CAPN_TYPE;
  is_list_member : bool;
  has_ptr_tag : bool;
  has_composite_tag : bool;
  datasz : Z;
  ptrsz : Z;
  size : Z;
  data : Z;
  seg : Z
}.

(** The values of C's [float] and [double], identified with their IEEE-754
    bit patterns: the accessors only ever move the bits. *)
Record float : Set := { float_bits : Z }.
Record double : Set := { double_bits : Z }.

Definition float_ok (f : float) : Prop := 0 <= float_bits f < 2 ^ 32.
Definition double_ok (f : double) : Prop := 0 <= double_bits f < 2 ^ 64.

(** ** Machine state *)

Definition mem : Type := Z -> byte.

Record state : Type := {
  memory : mem
}.

(** The host: its byte order and the size of its pointers in bytes. *)
Class Host : Set := { big_endian : bool; pointer_bytes : nat }.

Definition little_endian_host : Host := {| big_endian := false; pointer_bytes := 8 |}.
Definition big_endian_host : Host := {| big_endian := true; pointer_bytes := 8 |}.

(** ** Arithmetic of [int] *)

Definition int_min : Z := - 2 ^ 31.
Definition int_max : Z := 2 ^ 31 - 1.

(** [a + b] in [int], for [a] an [int] and [b] one of the constants 1, 2, 4
    and 8 of the accessors: the sum can leave the range of [int] only at the
    top, where it wraps around by [2^32]. *)
Definition int_add (a b : Z) : Z :=
  if int_max <? a + b then a + b - 2 ^ 32 else a + b.

(** Object representation of an unsigned integer of [n] bytes. *)
Definition to_bytes {h : Host} (n : nat) (x : Z) : list byte :=
  if big_endian then rev (le_split n x) else le_split n x.

Definition of_bytes {h : Host} (bs : list byte) : Z :=
  if big_endian then le_combine (rev bs) else le_combine bs.

Fixpoint load_bytes (m : mem) (a : Z) (n : nat) : list byte :=
  match n with
  | O => []
  | S n' => m a :: load_bytes m (a + 1) n'
  end.

Definition store_byte (m : mem) (a : Z) (b : byte) : mem :=
  fun x => if Z.eqb x a then b else m x.

Fixpoint store_bytes (m : mem) (a : Z) (bs : list byte) : mem :=
  match bs with
  | [] => m
  | b :: bs' => store_bytes (store_byte m a b) (a + 1) bs'
  end.

(** ** A state monad for the accessors *)

Definition M (A : Type) : Type := state -> A * state.

Definition ret {A : Type} (a : A) : M A := fun st => (a, st).

Definition bind {A B : Type} (c : M A) (k : A -> M B) : M B :=
  fun st => let (a, st') := c st in k a st'.

Notation "x <- c ;; k" := (bind c (fun x => k))
  (at level 61, c at next level, right associativity).
Notation "c ;;; k" := (bind c (fun _ => k))
  (at level 61, right associativity).

(** [*(uintN_t * ) a] as an rvalue, [n] the size of the type in bytes. *)
Definition load {h : Host} (n : nat) (a : Z) : M Z :=
  fun st => (of_bytes (load_bytes (memory st) a n), st).

(** [*(uintN_t * ) a = x]. *)
Definition store {h : Host} (n : nat) (a : Z) (x : Z) : M unit :=
  fun st => (tt, {| memory := store_bytes (memory st) a (to_bytes n x) |}).

(** ** Segment headers in memory

    [struct capn_segment] with natural alignment, [P] the size of a pointer:
    [hdr] at 0 ([parent], [link[0]], [link[1]] and the storage unit of the
    bit-field [red] at 0, P, 2P, 3P), [next] at 4P, [capn] at 5P, [id] at 6P,
    [data] at 7P, [len] at 8P, [cap] at 8P+4; 8P+8 bytes in all. *)

Definition load_unsigned {h : Host} (m : mem) (a : Z) (n : nat) : Z :=
  of_bytes (load_bytes m a n).

Definition load_pointer {h : Host} (m : mem) (a : Z) : Z :=
  load_unsigned m a pointer_bytes.

Definition load_int {h : Host} (m : mem) (a : Z) : Z :=
  let x := load_unsigned m a 4 in
  if x <? 2 ^ 31 then x else x - 2 ^ 32.

Definition sizeof_capn_segment {h : Host} : Z := 8 * Z.of_nat pointer_bytes + 8.

Definition load_segment {h : Host} (m : mem) (s : Z) : capn_segment :=
  let P := Z.of_nat pointer_bytes in
  {| hdr := {| parent := load_pointer m s;
               link0 := load_pointer m (s + P);
               link1 := load_pointer m (s + 2 * P);
               red := Z.testbit (load_unsigned m (s + 3 * P) 4)
                        (if big_endian then 31 else 0) |};
     next := load_pointer m (s + 4 * P);
     capn := load_pointer m (s + 5 * P);
     seg_id := load_unsigned m (s + 6 * P) 4;
     seg_data := load_pointer m (s + 7 * P);
     seg_len := load_int m (s + 8 * P);
     seg_cap := load_int m (s + 8 * P + 4) |}.

(** The segment header found at address [s]. *)
Definition segments {h : Host} (st : state) (s : Z) : capn_segment :=
  load_segment (memory st) s.

(** ** Byte-order helpers *)

Section Accessors.
Context {h : Host}.

(** The macro [T(IDX)]: the byte stored into [s.v[IDX]]. *)
Definition T (v : Z) (IDX : Z) : byte := byte.of_Z (Z.shiftr v (8 * IDX)).

Definition capn_flip8 (v : Z) : Z := v.

(** [s.u] is read back from the bytes [s.v] of the same union. *)
Definition capn_flip16 (v : Z) : Z :=
  of_bytes [T v 0; T v 1].

Definition capn_flip32 (v : Z) : Z :=
  of_bytes [T v 0; T v 1; T v 2; T v 3].

Definition capn_flip64 (v : Z) : Z :=
  of_bytes [T v 0; T v 1; T v 2; T v 3; T v 4; T v 5; T v 6; T v 7].

(** ** Struct field accessors *)

Definition capn_read8 (p : capn_ptr) (off : Z) : M Z :=
  if int_add off 1 <=? datasz p
  then x <- load 1 (data p + off) ;; ret (capn_flip8 x)
  else ret 0.

Definition capn_write8 (p : capn_ptr) (off : Z) (val : Z) : M Z :=
  if int_add off 1 <=? datasz p
  then store 1 (data p + off) (capn_flip8 val) ;;; ret 0
  else ret (-1).

Definition capn_read16 (p : capn_ptr) (off : Z) : M Z :=
  if int_add off 2 <=? datasz p
  then x <- load 2 (data p + off) ;; ret (capn_flip16 x)
  else ret 0.

Definition capn_write16 (p : capn_ptr) (off : Z) (val : Z) : M Z :=
  if int_add off 2 <=? datasz p
  then store 2 (data p + off) (capn_flip16 val) ;;; ret 0
  else ret (-1).

Definition capn_read32 (p : capn_ptr) (off : Z) : M Z :=
  if int_add off 4 <=? datasz p
  then x <- load 4 (data p + off) ;; ret (capn_flip32 x)
  else ret 0.

Definition capn_write32 (p : capn_ptr) (off : Z) (val : Z) : M Z :=
  if int_add off 4 <=? datasz p
  then store 4 (data p + off) (capn_flip32 val) ;;; ret 0
  else ret (-1).

Definition capn_read64 (p : capn_ptr) (off : Z) : M Z :=
  if int_add off 8 <=? datasz p
  then x <- load 8 (data p + off) ;; ret (capn_flip64 x)
  else ret 0.

Definition capn_write64 (p : capn_ptr) (off : Z) (val : Z) : M Z :=
  if int_add off 8 <=? datasz p
  then store 8 (data p + off) (capn_flip64 val) ;;; ret 0
  else ret (-1).

(** ** Float and double accessors

    [union { float f; uint32_t u; }] is one object of four bytes seen through
    either member; likewise the eight-byte union of the double accessors. *)

Definition union_bytes : Type := list byte.

Definition set_float (f : float) : union_bytes := to_bytes 4 (float_bits f).
Definition get_float (s : union_bytes) : float := {| float_bits := of_bytes s |}.
Definition set_u32 (x : Z) : union_bytes := to_bytes 4 x.
Definition get_u32 (s : union_bytes) : Z := of_bytes s.

Definition set_double (f : double) : union_bytes := to_bytes 8 (double_bits f).
Definition get_double (s : union_bytes) : double := {| double_bits := of_bytes s |}.
Definition set_u64 (x : Z) : union_bytes := to_bytes 8 x.
Definition get_u64 (s : union_bytes) : Z := of_bytes s.

Definition capn_read_float (p : capn_ptr) (off : Z) (def : float) : M float :=
  let u := set_float def in
  x <- capn_read32 p off ;;
  let u := set_u32 (Z.lxor (get_u32 u) x) in
  ret (get_float u).

Definition capn_write_float (p : capn_ptr) (off : Z) (f def : float) : M Z :=
  let u := set_float f in
  let d := set_float def in
  capn_write32 p off (Z.lxor (get_u32 u) (get_u32 d)).

Definition capn_read_double (p : capn_ptr) (off : Z) (def : double) : M double :=
  let u := set_double def in
  x <- capn_read64 p off ;;
  let u := set_u64 (Z.lxor (get_u64 u) x) in
  ret (get_double u).

(** As in the source, both unions receive [f]; [def] is not used. *)
Definition capn_write_double (p : capn_ptr) (off : Z) (f def : double) : M Z :=
  let d := set_double f in
  let u := set_double f in
  capn_write64 p off (Z.lxor (get_u64 u) (get_u64 d)).

End Accessors.

(** ** The four widths, for statements that range over N *)

Inductive width : Set := W8 | W16 | W32 | W64.

Definition nbytes (w : width) : nat :=
  match w with W8 => 1 | W16 => 2 | W32 => 4 | W64 => 8 end%nat.

Definition capn_read {h : Host} (w : width) : capn_ptr -> Z -> M Z :=
  match w with
  | W8 => capn_read8
  | W16 => capn_read16
  | W32 => capn_read32
  | W64 => capn_read64
  end.

Definition capn_write {h : Host} (w : width) : capn_ptr -> Z -> Z -> M Z :=
  match w with
  | W8 => capn_write8
  | W16 => capn_write16
  | W32 => capn_write32
  | W64 => capn_write64
  end.

Definition sizeof (w : width) : Z :=
  match w with W8 => 1 | W16 => 2 | W32 => 4 | W64 => 8 end.

Definition capn_flip {h : Host} (w : width) : Z -> Z :=
  match w with
  | W8 => capn_flip8
  | W16 => capn_flip16
  | W32 => capn_flip32
  | W64 => capn_flip64
  end.


(** ** Little-endian value of a byte sequence, written as a sum *)

Fixpoint little_endian (bs : list byte) : Z :=
  match bs with
  | [] => 0
  | b :: bs' => byte.unsigned b + 256 * little_endian bs'
  end.

(** The data section of the struct behind [p]. *)
Definition in_data_section (p : capn_ptr) (a : Z) : Prop :=
  data p <= a < data p + datasz p.

(** ** Sample inputs *)

(** A struct of two data words and one pointer, at word 1 of the segment. *)
Definition sample_ptr : capn_ptr :=
  {| type := CAPN_STRUCT; is_list_member := false; has_ptr_tag := false;
     has_composite_tag := false; datasz := 16; ptrsz := 8; size := 0;
     data := 4104; seg := 64 |}.

(** The same struct with its segment header in the 72 bytes just before the
    data section. *)
Definition header_adjacent_ptr : capn_ptr :=
  {| type := CAPN_STRUCT; is_list_member := false; has_ptr_tag := false;
     has_composite_tag := false; datasz := 16; ptrsz := 8; size := 0;
     data := 4104; seg := 4032 |}.

(** The byte at address [a] is [7a+3] modulo 256. *)
Definition sample_state : state :=
  {| memory := fun a => byte.of_Z (7 * a + 3) |}.

(** * Properties of the embedding *)

(** ** [int_add] is two's complement addition *)

Lemma int_add_wraps (a b : Z) :
  int_min <= a <= int_max -> 0 <= b <= int_max ->
  int_add a b = (a + b + 2 ^ 31) mod 2 ^ 32 - 2 ^ 31.
Proof.
  unfold int_add, int_min, int_max. intros Ha Hb.
  destruct (Z.ltb_spec (2 ^ 31 - 1) (a + b)).
  - replace (a + b + 2 ^ 31) with (a + b - 2 ^ 31 + 1 * 2 ^ 32) by lia.
    rewrite Z.mod_add, Z.mod_small by lia. lia.
  - rewrite Z.mod_small by lia. lia.
Qed.

Lemma int_add_le (a b : Z) : int_add a b <= a + b.
Proof. unfold int_add. destruct (int_max <? a + b); lia. Qed.

Lemma int_add_exact (a b : Z) : a + b <= 2147483647 -> int_add a b = a + b.
Proof.
  unfold int_add, int_max. intros H.
  destruct (Z.ltb_spec (2 ^ 31 - 1) (a + b)); [lia | reflexivity].
Qed.

Lemma int_add_overflow (a b : Z) : 2147483647 < a + b -> int_add a b = a + b - 4294967296.
Proof.
  unfold int_add, int_max. intros H.
  destruct (Z.ltb_spec (2 ^ 31 - 1) (a + b)); [reflexivity | lia].
Qed.

(** ** Object representation: decoding undoes encoding *)

Lemma of_bytes_to_bytes {h : Host} (n : nat) (x : Z) :
  of_bytes (to_bytes n x) = x mod 2 ^ (Z.of_nat n * 8).
Proof.
  unfold of_bytes, to_bytes. destruct big_endian.
  - rewrite rev_involutive. apply le_combine_split.
  - apply le_combine_split.
Qed.

Lemma to_bytes_of_bytes {h : Host} (bs : list byte) :
  to_bytes (length bs) (of_bytes bs) = bs.
Proof.
  unfold of_bytes, to_bytes. destruct big_endian.
  - rewrite <- (length_rev bs), split_le_combine. apply rev_involutive.
  - apply split_le_combine.
Qed.

Lemma of_bytes_le_split_of_bytes {h : Host} (bs : list byte) :
  of_bytes (le_split (length bs) (of_bytes bs)) = le_combine bs.
Proof.
  unfold of_bytes. destruct big_endian.
  - rewrite <- (length_rev bs), split_le_combine, rev_involutive. reflexivity.
  - rewrite split_le_combine. reflexivity.
Qed.

Lemma length_load_bytes (m : mem) (n : nat) :
  forall a, length (load_bytes m a n) = n.
Proof. induction n as [|n IH]; intros a; simpl; [|rewrite IH]; reflexivity. Qed.

(** ** Memory: what a store of several bytes changes *)

Lemma store_bytes_outside (bs : list byte) :
  forall m a x, ~ (a <= x < a + Z.of_nat (length bs)) ->
  store_bytes m a bs x = m x.
Proof.
  induction bs as [|b bs IH]; intros m a x Hx; simpl; [reflexivity|].
  rewrite IH.
  - unfold store_byte. destruct (Z.eqb_spec x a) as [->|]; [|reflexivity].
    exfalso. apply Hx. simpl length. lia.
  - simpl length in Hx. lia.
Qed.

Lemma store_bytes_inside (bs : list byte) :
  forall m a i d, (i < length bs)%nat ->
  store_bytes m a bs (a + Z.of_nat i) = nth i bs d.
Proof.
  induction bs as [|b bs IH]; intros m a i d Hi; simpl in Hi; [lia|].
  destruct i as [|i]; simpl.
  - rewrite store_bytes_outside by lia.
    unfold store_byte. rewrite Z.add_0_r, Z.eqb_refl. reflexivity.
  - replace (a + Z.pos (Pos.of_succ_nat i)) with (a + 1 + Z.of_nat i) by lia.
    apply IH. lia.
Qed.

Lemma load_store_bytes (bs : list byte) :
  forall m a, load_bytes (store_bytes m a bs) a (length bs) = bs.
Proof.
  induction bs as [|b bs IH]; intros m a; simpl; [reflexivity|].
  rewrite IH. f_equal.
  rewrite store_bytes_outside by lia.
  unfold store_byte. rewrite Z.eqb_refl. reflexivity.
Qed.

(** ** The flips: the bytes [s.v] are the little-endian bytes of [v] *)

Lemma le_split_T (n : nat) :
  forall v k, 0 <= k ->
  le_split n (Z.shiftr v (8 * k)) =
  map (fun i => T v (k + Z.of_nat i)) (seq 0 n).
Proof.
  induction n as [|n IH]; intros v k Hk; [reflexivity|].
  change (le_split (S n) (Z.shiftr v (8 * k)))
    with (byte.of_Z (Z.shiftr v (8 * k)) :: le_split n (Z.shiftr (Z.shiftr v (8 * k)) 8)).
  cbn [seq map]. f_equal.
  - unfold T. rewrite Z.add_0_r. reflexivity.
  - rewrite Z.shiftr_shiftr by lia.
    replace (8 * k + 8) with (8 * (k + 1)) by lia.
    rewrite IH by lia. rewrite <- seq_shift, map_map.
    apply map_ext. intros i. f_equal. lia.
Qed.

Lemma le_split_T0 (n : nat) (v : Z) :
  le_split n v = map (fun i => T v (Z.of_nat i)) (seq 0 n).
Proof.
  rewrite <- (Z.shiftr_0_r v) at 1.
  change 0 with (8 * 0) at 1. rewrite le_split_T by lia.
  apply map_ext. intros i. reflexivity.
Qed.

Lemma capn_flip16_bytes {h : Host} (v : Z) :
  capn_flip16 v = of_bytes (le_split 2 v).
Proof. rewrite le_split_T0. reflexivity. Qed.

Lemma capn_flip32_bytes {h : Host} (v : Z) :
  capn_flip32 v = of_bytes (le_split 4 v).
Proof. rewrite le_split_T0. reflexivity. Qed.

Lemma capn_flip64_bytes {h : Host} (v : Z) :
  capn_flip64 v = of_bytes (le_split 8 v).
Proof. rewrite le_split_T0. reflexivity. Qed.

Lemma of_bytes_single {h : Host} (b : byte) : of_bytes [b] = le_combine [b].
Proof. unfold of_bytes. destruct big_endian; reflexivity. Qed.

Lemma to_bytes_single {h : Host} (x : Z) : to_bytes 1 x = le_split 1 x.
Proof. unfold to_bytes. destruct big_endian; reflexivity. Qed.

Lemma to_bytes_flip {h : Host} (n : nat) (v : Z) :
  to_bytes n (of_bytes (le_split n v)) = le_split n v.
Proof.
  rewrite <- (length_le_split n v) at 1. apply to_bytes_of_bytes.
Qed.

Lemma flip_of_bytes {h : Host} (n : nat) (m : mem) (a : Z) :
  of_bytes (le_split n (of_bytes (load_bytes m a n))) =
  le_combine (load_bytes m a n).
Proof.
  rewrite <- (length_load_bytes m n a) at 1. apply of_bytes_le_split_of_bytes.
Qed.

(** ** The accessors, independent of the host

    On either host a read yields the little-endian value of the bytes at
    [p.data + off], and a write stores the little-endian bytes of the value
    there. *)

Lemma sizeof_nbytes (w : width) : sizeof w = Z.of_nat (nbytes w).
Proof. destruct w; reflexivity. Qed.

Lemma capn_read_eq {h : Host} (w : width) (p : capn_ptr) (off : Z) (st : state) :
  capn_read w p off st =
  (if int_add off (sizeof w) <=? datasz p
   then le_combine (load_bytes (memory st) (data p + off) (nbytes w))
   else 0, st).
Proof.
  destruct w; cbn [capn_read sizeof nbytes];
    unfold capn_read8, capn_read16, capn_read32, capn_read64;
    match goal with |- context [?a <=? ?b] => destruct (a <=? b) end;
    try reflexivity; unfold bind, load, ret; f_equal.
  - unfold capn_flip8. apply of_bytes_single.
  - rewrite capn_flip16_bytes. apply flip_of_bytes.
  - rewrite capn_flip32_bytes. apply flip_of_bytes.
  - rewrite capn_flip64_bytes. apply flip_of_bytes.
Qed.

Lemma capn_write_eq {h : Host} (w : width) (p : capn_ptr) (off v : Z) (st : state) :
  capn_write w p off v st =
  if int_add off (sizeof w) <=? datasz p
  then (0, {| memory := store_bytes (memory st) (data p + off)
                          (le_split (nbytes w) v) |})
  else (-1, st).
Proof.
  destruct w; cbn [capn_write sizeof nbytes];
    unfold capn_write8, capn_write16, capn_write32, capn_write64;
    match goal with |- context [?a <=? ?b] => destruct (a <=? b) end;
    try reflexivity; unfold bind, store, ret; do 3 f_equal.
  - unfold capn_flip8. apply to_bytes_single.
  - rewrite capn_flip16_bytes. apply to_bytes_flip.
  - rewrite capn_flip32_bytes. apply to_bytes_flip.
  - rewrite capn_flip64_bytes. apply to_bytes_flip.
Qed.

Lemma byte_land_shiftl (b : byte) (x : Z) :
  Z.land (byte.unsigned b) (Z.shiftl x 8) = 0.
Proof.
  pose proof (byte.unsigned_range b) as Hb.
  apply Z.bits_inj'. intros i Hi.
  rewrite Z.land_spec, Z.bits_0.
  destruct (Z.ltb_spec i 8) as [Hlt|Hge].
  - rewrite (Z.shiftl_spec_low x 8 i) by lia. apply andb_false_r.
  - rewrite <- (Z.mod_small (byte.unsigned b) (2 ^ 8)) by exact Hb.
    rewrite Z.mod_pow2_bits_high by lia. reflexivity.
Qed.

Lemma le_combine_little_endian (bs : list byte) :
  le_combine bs = little_endian bs.
Proof.
  induction bs as [|b bs IH]; [reflexivity|].
  change (le_combine (b :: bs))
    with (Z.lor (byte.unsigned b) (Z.shiftl (le_combine bs) 8)).
  cbn [little_endian].
  rewrite <- Z.lxor_lor, <- Z.add_nocarry_lxor by apply byte_land_shiftl.
  rewrite Z.shiftl_mul_pow2 by lia. rewrite IH. change (2 ^ 8) with 256. lia.
Qed.

Lemma lxor_mod_pow2 (a b k : Z) : 0 <= k ->
  Z.lxor a b mod 2 ^ k = Z.lxor (a mod 2 ^ k) (b mod 2 ^ k).
Proof.
  intros Hk. rewrite <- !Z.land_ones by exact Hk.
  apply Z.bits_inj'. intros i Hi.
  rewrite ?Z.land_spec, ?Z.lxor_spec, ?Z.land_spec.
  destruct (Z.testbit (Z.ones k) i), (Z.testbit a i), (Z.testbit b i); reflexivity.
Qed.

Lemma lxor_cancel_mod (a b k : Z) : 0 <= k ->
  Z.lxor (b mod 2 ^ k) (Z.lxor (a mod 2 ^ k) (b mod 2 ^ k) mod 2 ^ k) mod 2 ^ k
  = a mod 2 ^ k.
Proof.
  intros Hk. rewrite !lxor_mod_pow2 by exact Hk.
  rewrite !Z.mod_mod by (apply Z.pow_nonzero; lia).
  rewrite (Z.lxor_comm (a mod 2 ^ k)), <- Z.lxor_assoc, Z.lxor_nilpotent.
  apply Z.lxor_0_l.
Qed.

(** Scenario: a 64-bit and a 32-bit field written and read back on a
    big-endian host, and the bytes left in memory. *)
Example write_read_fields :
  let h := big_endian_host in
  let st1 := snd (capn_write64 sample_ptr 0 81985529216486895 sample_state) in
  let st2 := snd (capn_write32 sample_ptr 8 3405691582 st1) in
  fst (capn_read64 sample_ptr 0 st2) = 81985529216486895 /\
  fst (capn_read32 sample_ptr 8 st2) = 3405691582 /\
  load_bytes (memory st2) 4104 12 =
    [Byte.xef; Byte.xcd; Byte.xab; Byte.x89; Byte.x67; Byte.x45; Byte.x23; Byte.x01;
     Byte.xbe; Byte.xba; Byte.xfe; Byte.xca].
Proof. vm_compute. repeat split. Qed.

(** ** Reading back what a write stored *)

(** Decide the bounds guard of an accessor and discard the impossible side. *)
Ltac bounds_guard :=
  match goal with
  | |- context [int_add ?a ?b <=? ?c] =>
      pose proof (int_add_le a b); pose proof (int_add_exact a b);
      unfold int_max in *;
      destruct (Z.leb_spec (int_add a b) c); try lia
  end.

Lemma capn_read_beyond_datasz {h : Host}
    (w : width) (p : capn_ptr) (off : Z) (st : state) :
  off + sizeof w <= int_max ->
  datasz p < off + sizeof w ->
  capn_read w p off st = (0, st).
Proof. intros Hint Hoob. rewrite capn_read_eq. bounds_guard. reflexivity. Qed.

Lemma load_bytes_ext (m1 m2 : mem) (n : nat) :
  forall a, (forall x, a <= x < a + Z.of_nat n -> m1 x = m2 x) ->
  load_bytes m1 a n = load_bytes m2 a n.
Proof.
  induction n as [|n IH]; intros a Hagree; [reflexivity|].
  cbn [load_bytes]. f_equal.
  - apply Hagree. lia.
  - apply IH. intros x Hx. apply Hagree. lia.
Qed.

Lemma state_ext (s1 s2 : state) :
  (forall a, memory s1 a = memory s2 a) -> s1 = s2.
Proof.
  destruct s1 as [m1], s2 as [m2]. cbn [memory]. intros H.
  f_equal. apply functional_extensionality. exact H.
Qed.

Lemma load_segment_ext {h : Host} (m1 m2 : mem) (s : Z) :
  (forall a, s <= a < s + sizeof_capn_segment -> m1 a = m2 a) ->
  load_segment m1 s = load_segment m2 s.
Proof.
  unfold sizeof_capn_segment. intros Hagree.
  assert (Hu : forall a n, s <= a -> a + Z.of_nat n <= s + (8 * Z.of_nat pointer_bytes + 8) ->
                load_unsigned m1 a n = load_unsigned m2 a n).
  { intros a n Hlo Hhi. unfold load_unsigned. f_equal.
    apply load_bytes_ext. intros x Hx. apply Hagree. lia. }
  unfold load_segment, load_pointer, load_int.
  rewrite !(Hu _ _) by lia. reflexivity.
Qed.

Lemma load_store_le_split (n : nat) (v : Z) (m : mem) (a : Z) :
  load_bytes (store_bytes m a (le_split n v)) a n = le_split n v.
Proof.
  pose proof (load_store_bytes (le_split n v) m a) as H.
  rewrite length_le_split in H. exact H.
Qed.

Lemma stored_byte (n : nat) (v : Z) (m : mem) (a i : Z) :
  0 <= i < Z.of_nat n ->
  byte.unsigned (store_bytes m a (le_split n v) (a + i)) =
  Z.land (Z.shiftr v (8 * i)) 255.
Proof.
  intros Hi. rewrite <- (Z2Nat.id i) by lia.
  rewrite (store_bytes_inside _ m a (Z.to_nat i) Byte.x00)
    by (rewrite length_le_split; lia).
  erewrite nth_error_nth by (apply nth_error_le_split; lia).
  rewrite byte.unsigned_of_Z. unfold byte.wrap.
  rewrite <- Z.land_ones by lia. reflexivity.
Qed.

(** ** Float and double accessors in terms of the integer ones *)

Lemma capn_read_float_eq {h : Host} (p : capn_ptr) (off : Z) (def : float) (st : state) :
  capn_read_float p off def st =
  ({| float_bits :=
        Z.lxor (float_bits def mod 2 ^ 32) (fst (capn_read W32 p off st)) mod 2 ^ 32 |},
   st).
Proof.
  unfold capn_read_float, bind, ret, get_float, set_u32, get_u32, set_float.
  change (capn_read32 p off) with (capn_read W32 p off).
  rewrite capn_read_eq. cbn [fst]. rewrite !of_bytes_to_bytes. reflexivity.
Qed.

Lemma capn_read_double_eq {h : Host} (p : capn_ptr) (off : Z) (def : double) (st : state) :
  capn_read_double p off def st =
  ({| double_bits :=
        Z.lxor (double_bits def mod 2 ^ 64) (fst (capn_read W64 p off st)) mod 2 ^ 64 |},
   st).
Proof.
  unfold capn_read_double, bind, ret, get_double, set_u64, get_u64, set_double.
  change (capn_read64 p off) with (capn_read W64 p off).
  rewrite capn_read_eq. cbn [fst]. rewrite !of_bytes_to_bytes. reflexivity.
Qed.

Lemma capn_write_float_eq {h : Host} (p : capn_ptr) (off : Z) (f def : float) :
  capn_write_float p off f def =
  capn_write W32 p off (Z.lxor (float_bits f mod 2 ^ 32) (float_bits def mod 2 ^ 32)).
Proof.
  unfold capn_write_float, get_u32, set_float.
  rewrite !of_bytes_to_bytes. reflexivity.
Qed.

(** The value written by [capn_write_double] is the XOR of [f] with itself. *)
Lemma capn_write_double_eq {h : Host} (p : capn_ptr) (off : Z) (f def : double) :
  capn_write_double p off f def = capn_write W64 p off 0.
Proof.
  unfold capn_write_double, get_u64, set_double.
  rewrite Z.lxor_nilpotent. reflexivity.
Qed.

Lemma read_after_write_in_bounds {h : Host}
    (w : width) (p : capn_ptr) (off v : Z) (st : state) :
  off + sizeof w <= datasz p ->
  fst (capn_read w p off (snd (capn_write w p off v st))) = v mod 2 ^ (8 * sizeof w).
Proof.
  intros Hin. rewrite capn_write_eq, capn_read_eq. bounds_guard.
  cbn [fst snd memory].
  rewrite load_store_le_split, le_combine_split, sizeof_nbytes, Z.mul_comm.
  reflexivity.
Qed.

(** Whatever [f] and [def], a double read back after [capn_write_double]
    is the default. *)
Lemma capn_write_double_reads_default {h : Host}
    (p : capn_ptr) (off : Z) (f def : double) (st : state) :
  off + 8 <= datasz p -> double_ok def ->
  fst (capn_read_double p off def (snd (capn_write_double p off f def st))) = def.
Proof.
  intros Hin Hdef. rewrite capn_write_double_eq, capn_read_double_eq. cbn [fst].
  rewrite read_after_write_in_bounds by exact Hin.
  rewrite Z.mod_0_l by (apply Z.pow_nonzero; cbn; lia).
  rewrite Z.lxor_0_r, Z.mod_mod by (apply Z.pow_nonzero; lia).
  unfold double_ok in Hdef. rewrite Z.mod_small by exact Hdef.
  destruct def; reflexivity.
Qed.

(** * The accessors' contract *)

(** C1. [capn_write_double] at a failing input: writing [f = 1.0] over the
    default [2.0] succeeds but stores eight zero bytes, not the bytes of the
    XOR of the two bit patterns, and [capn_read_double] with the same default
    then returns [2.0], not [1.0]. *)
Theorem capn_write_double_ignores_default (h : Host) :
  let f := {| double_bits := 4607182418800017408 |} in
  let def := {| double_bits := 4611686018427387904 |} in
  let st' := snd (capn_write_double sample_ptr 0 f def sample_state) in
  fst (capn_write_double sample_ptr 0 f def sample_state) = 0 /\
  load_bytes (memory st') (data sample_ptr + 0) 8 = repeat Byte.x00 8 /\
  le_split 8 (Z.lxor (double_bits f) (double_bits def)) <> repeat Byte.x00 8 /\
  fst (capn_read_double sample_ptr 0 def st') = def /\
  def <> f.
Proof.
  intros f def st'. subst st'.
  split; [rewrite capn_write_double_eq, capn_write_eq; reflexivity|].
  split; [rewrite capn_write_double_eq, capn_write_eq; cbn [snd]; vm_compute; reflexivity|].
  split; [vm_compute; discriminate|].
  split; [|discriminate].
  apply capn_write_double_reads_default; [cbn; lia | unfold double_ok; cbn; lia].
Qed.

(** C2 (as amended). When [off + N/8] does not exceed [INT_MAX], a read of
    [N/8] bytes at an offset with [off + N/8 > p.datasz] returns zero, for each
    of the four widths, and does nothing else. *)
Theorem capn_read_out_of_bounds {h : Host}
    (w : width) (p : capn_ptr) (off : Z) (st : state) :
  off + sizeof w <= int_max ->
  off + sizeof w > datasz p ->
  capn_read w p off st = (0, st).
Proof.
  intros Hint Hoob. apply capn_read_beyond_datasz; [exact Hint | lia].
Qed.

Lemma capn_read_out_of_bounds_witness :
  (12 + sizeof W64 <= int_max /\ 12 + sizeof W64 > datasz sample_ptr) /\
  @capn_read big_endian_host W64 sample_ptr 12 sample_state = (0, sample_state).
Proof.
  split; [cbn; lia|].
  apply (@capn_read_out_of_bounds big_endian_host W64 sample_ptr 12 sample_state);
    cbn; lia.
Defined.

(** C2 as stated fails where [off + N/8] overflows [int]: with
    [off = INT_MAX] the sum wraps to a negative number, the guard passes, and
    [capn_read16] returns the two bytes found at [p.data + INT_MAX]. *)
Lemma capn_read_out_of_bounds_overflow :
  2147483647 + sizeof W16 > datasz sample_ptr /\
  fst (@capn_read little_endian_host W16 sample_ptr 2147483647 sample_state) = 15156 /\
  @capn_read little_endian_host W16 sample_ptr 2147483647 sample_state
    <> (0, sample_state).
Proof.
  split; [cbn; lia|].
  assert (H : fst (@capn_read little_endian_host W16 sample_ptr 2147483647 sample_state)
              = 15156) by (vm_compute; reflexivity).
  split; [exact H|]. intros E. rewrite E in H. discriminate H.
Qed.

(** C3 (as amended). A write returns 0 when [off + N/8 <= p.datasz]; it
    returns -1 when [off + N/8 > p.datasz] and [off + N/8] does not exceed
    [INT_MAX]; and it has no result other than 0 and -1. *)
Theorem capn_write_result {h : Host}
    (w : width) (p : capn_ptr) (off v : Z) (st : state) :
  (off + sizeof w <= datasz p -> fst (capn_write w p off v st) = 0) /\
  (off + sizeof w <= int_max -> off + sizeof w > datasz p ->
     fst (capn_write w p off v st) = -1) /\
  (fst (capn_write w p off v st) = 0 \/ fst (capn_write w p off v st) = -1).
Proof.
  rewrite capn_write_eq. repeat split.
  - intros Hin. bounds_guard. reflexivity.
  - intros Hint Hoob. bounds_guard. reflexivity.
  - destruct (int_add off (sizeof w) <=? datasz p); [left | right]; reflexivity.
Qed.

Lemma capn_write_result_witness :
  (8 + sizeof W64 <= datasz sample_ptr /\
   10 + sizeof W64 <= int_max /\ 10 + sizeof W64 > datasz sample_ptr) /\
  fst (@capn_write big_endian_host W64 sample_ptr 8 7 sample_state) = 0 /\
  fst (@capn_write big_endian_host W64 sample_ptr 10 7 sample_state) = -1.
Proof.
  split; [cbn; lia|]. split.
  - apply (@capn_write_result big_endian_host W64 sample_ptr 8 7 sample_state).
    cbn; lia.
  - apply (@capn_write_result big_endian_host W64 sample_ptr 10 7 sample_state);
      cbn; lia.
Defined.

(** C3 as stated fails where [off + N/8] overflows [int]: with
    [off = INT_MAX] the guard of [capn_write64] passes, the write returns 0
    and stores at [p.data + INT_MAX], although [off + 8 > p.datasz]. *)
Lemma capn_write_result_overflow :
  2147483647 + sizeof W64 > datasz sample_ptr /\
  fst (@capn_write little_endian_host W64 sample_ptr 2147483647 7 sample_state) = 0 /\
  memory (snd (@capn_write little_endian_host W64 sample_ptr 2147483647 7 sample_state))
    (data sample_ptr + 2147483647) = Byte.x07.
Proof.
  split; [cbn; lia|]. split; vm_compute; reflexivity.
Qed.

(** C4. A write that returns -1 leaves the whole state as it was: no byte of
    memory and no segment header is modified.  (The pointer [p] is passed by
    value; the callee has no access to the caller's copy.) *)
Theorem capn_write_failure_no_change {h : Host}
    (w : width) (p : capn_ptr) (off v : Z) (st : state) :
  fst (capn_write w p off v st) = -1 ->
  snd (capn_write w p off v st) = st.
Proof.
  rewrite capn_write_eq.
  destruct (int_add off (sizeof w) <=? datasz p); cbn [fst snd];
    [discriminate | reflexivity].
Qed.

Lemma capn_write_failure_no_change_witness :
  fst (@capn_write little_endian_host W16 sample_ptr 15 4660 sample_state) = -1 /\
  snd (@capn_write little_endian_host W16 sample_ptr 15 4660 sample_state) = sample_state.
Proof.
  split; [reflexivity|].
  apply (@capn_write_failure_no_change little_endian_host W16 sample_ptr 15 4660 sample_state).
  reflexivity.
Defined.

(** C5. In bounds, a write stores the value little-endian (byte [i] of the
    field is [(v >> 8i) & 0xFF]), a read assembles the little-endian value of
    the [N/8] bytes of the field, and so a read after a write at the same
    offset returns the value written. *)
Theorem capn_write_read_little_endian {h : Host}
    (w : width) (p : capn_ptr) (off v : Z) (st : state) :
  off + sizeof w <= datasz p ->
  0 <= v < 2 ^ (8 * sizeof w) ->
  fst (capn_write w p off v st) = 0 /\
  (forall i, 0 <= i < sizeof w ->
     byte.unsigned (memory (snd (capn_write w p off v st)) (data p + off + i)) =
     Z.land (Z.shiftr v (8 * i)) 255) /\
  (forall s, fst (capn_read w p off s) =
     little_endian (load_bytes (memory s) (data p + off) (nbytes w))) /\
  fst (capn_read w p off (snd (capn_write w p off v st))) = v.
Proof.
  intros Hin Hv.
  assert (Hr : forall s, fst (capn_read w p off s) =
             le_combine (load_bytes (memory s) (data p + off) (nbytes w))).
  { intros s. rewrite capn_read_eq. bounds_guard. reflexivity. }
  rewrite capn_write_eq. bounds_guard.
  cbn [fst snd memory]. repeat split.
  - intros i Hi. apply stored_byte. rewrite <- sizeof_nbytes. exact Hi.
  - intros s. rewrite Hr. apply le_combine_little_endian.
  - rewrite Hr. cbn [memory].
    rewrite load_store_le_split, le_combine_split.
    apply Z.mod_small. rewrite <- sizeof_nbytes, Z.mul_comm. exact Hv.
Qed.

Lemma capn_write_read_little_endian_witness :
  let v := 81985529216486895 in
  let st' := snd (@capn_write big_endian_host W64 sample_ptr 0 v sample_state) in
  (0 + sizeof W64 <= datasz sample_ptr /\ 0 <= v < 2 ^ (8 * sizeof W64)) /\
  fst (@capn_write big_endian_host W64 sample_ptr 0 v sample_state) = 0 /\
  (forall i, 0 <= i < sizeof W64 ->
     byte.unsigned (memory st' (data sample_ptr + 0 + i)) =
     Z.land (Z.shiftr v (8 * i)) 255) /\
  (forall s, fst (@capn_read big_endian_host W64 sample_ptr 0 s) =
     little_endian (load_bytes (memory s) (data sample_ptr + 0) (nbytes W64))) /\
  fst (@capn_read big_endian_host W64 sample_ptr 0 st') = v.
Proof.
  intros v st'. split; [cbn; lia|].
  apply (@capn_write_read_little_endian big_endian_host W64 sample_ptr 0 v
           sample_state); cbn; lia.
Defined.

(** C6. In bounds, [capn_read_float] after [capn_write_float] with the same
    default returns the float that was written, bit for bit. *)
Theorem float_write_read_roundtrip {h : Host}
    (p : capn_ptr) (off : Z) (f def : float) (st : state) :
  off + 4 <= datasz p ->
  float_ok f -> float_ok def ->
  fst (capn_read_float p off def (snd (capn_write_float p off f def st))) = f.
Proof.
  intros Hin Hf Hdef. rewrite capn_write_float_eq, capn_read_float_eq. cbn [fst].
  rewrite read_after_write_in_bounds by exact Hin.
  change (8 * sizeof W32) with 32.
  rewrite lxor_cancel_mod by lia.
  unfold float_ok in Hf. rewrite Z.mod_small by exact Hf.
  destruct f; reflexivity.
Qed.

Lemma float_write_read_roundtrip_witness :
  let f := {| float_bits := 1078530011 |} in
  let def := {| float_bits := 3212836864 |} in
  (4 + 4 <= datasz sample_ptr /\ float_ok f /\ float_ok def) /\
  fst (@capn_read_float big_endian_host sample_ptr 4 def
         (snd (@capn_write_float big_endian_host sample_ptr 4 f def sample_state))) = f.
Proof.
  intros f def. split; [unfold float_ok; cbn; lia|].
  apply (@float_write_read_roundtrip big_endian_host sample_ptr 4 f def sample_state);
    unfold float_ok; cbn; lia.
Defined.

(** C7 (as amended). When [off + 4] ([off + 8]) does not exceed [INT_MAX],
    an out-of-bounds [capn_read_float] ([capn_read_double]) returns the
    default, bit for bit. *)
Theorem float_double_read_out_of_bounds {h : Host}
    (p : capn_ptr) (off : Z) (deff : float) (defd : double) (st : state) :
  float_ok deff -> double_ok defd ->
  (off + 4 <= int_max -> off + 4 > datasz p ->
     fst (capn_read_float p off deff st) = deff) /\
  (off + 8 <= int_max -> off + 8 > datasz p ->
     fst (capn_read_double p off defd st) = defd).
Proof.
  unfold float_ok, double_ok. intros Hf Hd. split; intros Hint Hoob.
  - rewrite capn_read_float_eq, capn_read_beyond_datasz
      by (unfold int_max in *; cbn; lia). cbn [fst].
    rewrite Z.lxor_0_r, Z.mod_mod by (apply Z.pow_nonzero; lia).
    rewrite Z.mod_small by exact Hf. destruct deff; reflexivity.
  - rewrite capn_read_double_eq, capn_read_beyond_datasz
      by (unfold int_max in *; cbn; lia). cbn [fst].
    rewrite Z.lxor_0_r, Z.mod_mod by (apply Z.pow_nonzero; lia).
    rewrite Z.mod_small by exact Hd. destruct defd; reflexivity.
Qed.

Lemma float_double_read_out_of_bounds_witness :
  let deff := {| float_bits := 1078530011 |} in
  let defd := {| double_bits := 4614256656552045848 |} in
  (float_ok deff /\ double_ok defd /\
   14 + 4 <= int_max /\ 14 + 4 > datasz sample_ptr /\
   14 + 8 <= int_max /\ 14 + 8 > datasz sample_ptr) /\
  fst (@capn_read_float little_endian_host sample_ptr 14 deff sample_state) = deff /\
  fst (@capn_read_double little_endian_host sample_ptr 14 defd sample_state) = defd.
Proof.
  intros deff defd. split; [unfold float_ok, double_ok; cbn; lia|].
  destruct (@float_double_read_out_of_bounds little_endian_host sample_ptr 14
              deff defd sample_state) as [Hf Hd];
    [unfold float_ok; cbn; lia | unfold double_ok; cbn; lia |].
  split; [apply Hf | apply Hd]; cbn; lia.
Defined.

(** C7 as stated fails where [off + 4] ([off + 8]) overflows [int]: with
    [off = INT_MAX] the guard passes and the float (double) returned is the
    default XORed with the bytes found at [p.data + INT_MAX], not the
    default. *)
Lemma float_double_read_out_of_bounds_overflow :
  let deff := {| float_bits := 1078530011 |} in
  let defd := {| double_bits := 4614256656552045848 |} in
  (float_ok deff /\ double_ok defd /\
   2147483647 + 4 > datasz sample_ptr /\ 2147483647 + 8 > datasz sample_ptr) /\
  fst (@capn_read_float little_endian_host sample_ptr 2147483647 deff sample_state)
    <> deff /\
  fst (@capn_read_double little_endian_host sample_ptr 2147483647 defd sample_state)
    <> defd.
Proof.
  intros deff defd. split; [unfold float_ok, double_ok; cbn; lia|].
  split; vm_compute; discriminate.
Qed.

(** C8. Every read primitive returns the state it was given: memory and
    segment headers are the same before and after the call.  (The pointer [p]
    is passed by value.) *)
Theorem reads_leave_state_unchanged {h : Host}
    (p : capn_ptr) (off : Z) (st : state) :
  (forall w, snd (capn_read w p off st) = st) /\
  (forall def, snd (capn_read_float p off def st) = st) /\
  (forall def, snd (capn_read_double p off def st) = st).
Proof.
  assert (H32 : forall q o s, snd (capn_read32 q o s) = s).
  { intros q o s. change (capn_read32 q o) with (capn_read W32 q o).
    rewrite capn_read_eq. reflexivity. }
  assert (H64 : forall q o s, snd (capn_read64 q o s) = s).
  { intros q o s. change (capn_read64 q o) with (capn_read W64 q o).
    rewrite capn_read_eq. reflexivity. }
  repeat split.
  - intros w. rewrite capn_read_eq. reflexivity.
  - intros def. unfold capn_read_float, bind, ret.
    specialize (H32 p off st). destruct (capn_read32 p off st). exact H32.
  - intros def. unfold capn_read_double, bind, ret.
    specialize (H64 p off st). destruct (capn_read64 p off st). exact H64.
Qed.

(** C9. The guards test [off + N/8 <= p.datasz] only: with [off = -1] and any
    [datasz >= 0], [capn_read8] returns the byte just before [p.data] and
    [capn_write8] returns 0 after storing to that address, which is outside
    the data section; in general every negative offset with
    [off + N/8 <= p.datasz] is accepted by the reads and the writes. *)
Theorem negative_offset_accepted {h : Host}
    (p : capn_ptr) (v : Z) (st : state) :
  0 <= datasz p ->
  capn_read8 p (-1) st = (byte.unsigned (memory st (data p - 1)), st) /\
  fst (capn_write8 p (-1) v st) = 0 /\
  memory (snd (capn_write8 p (-1) v st)) (data p - 1) = byte.of_Z v /\
  ~ in_data_section p (data p - 1) /\
  (forall w off, off < 0 -> off + sizeof w <= datasz p ->
     fst (capn_write w p off v st) = 0 /\
     memory (snd (capn_write w p off v st)) (data p + off) = byte.of_Z v /\
     ~ in_data_section p (data p + off) /\
     fst (capn_read w p off st) =
       little_endian (load_bytes (memory st) (data p + off) (nbytes w))).
Proof.
  intros Hsz.
  assert (Hgen : forall w off, off < 0 -> off + sizeof w <= datasz p ->
     fst (capn_write w p off v st) = 0 /\
     memory (snd (capn_write w p off v st)) (data p + off) = byte.of_Z v /\
     ~ in_data_section p (data p + off) /\
     fst (capn_read w p off st) =
       little_endian (load_bytes (memory st) (data p + off) (nbytes w))).
  { intros w off Hneg Hin. rewrite capn_write_eq, capn_read_eq. bounds_guard.
    cbn [fst snd memory]. repeat split.
    - rewrite <- (Z.add_0_r (data p + off)) at 2.
      rewrite (store_bytes_inside _ _ _ 0%nat Byte.x00)
        by (rewrite length_le_split; destruct w; cbn; lia).
      destruct w; reflexivity.
    - unfold in_data_section. lia.
    - apply le_combine_little_endian. }
  destruct (Hgen W8 (-1)) as (Hw & Hm & Hout & Hr); [lia | cbn; lia |].
  change (capn_write W8) with capn_write8 in Hw, Hm.
  replace (data p + -1) with (data p - 1) in * by lia.
  split; [|split; [exact Hw | split; [exact Hm | split; [exact Hout | exact Hgen]]]].
  change capn_read8 with (capn_read W8). rewrite capn_read_eq.
  cbn [sizeof]. bounds_guard.
  cbn [nbytes load_bytes]. replace (data p + -1) with (data p - 1) by lia.
  rewrite le_combine_1. reflexivity.
Qed.

Lemma negative_offset_accepted_witness :
  0 <= datasz sample_ptr /\
  @capn_read8 little_endian_host sample_ptr (-1) sample_state
    = (byte.unsigned (memory sample_state 4103), sample_state) /\
  fst (@capn_write8 little_endian_host sample_ptr (-1) 90 sample_state) = 0 /\
  memory (snd (@capn_write8 little_endian_host sample_ptr (-1) 90 sample_state)) 4103
    = Byte.x5a /\
  ~ in_data_section sample_ptr 4103.
Proof.
  split; [cbn; lia|].
  pose proof (@negative_offset_accepted little_endian_host sample_ptr 90 sample_state)
    as H.
  destruct H as (Hr & Hw & Hm & Hout & _); [cbn; lia|].
  repeat split; assumption.
Defined.

(** C10 (as amended). A write that returns 0 modifies at most the [N/8]
    bytes at [p.data + off .. p.data + off + N/8 - 1]: every other byte of
    memory is unchanged, and so is the header of [p]'s segment when its
    storage does not overlap those bytes.  (The pointer [p] is passed by
    value.) *)
Theorem capn_write_success_frame {h : Host}
    (w : width) (p : capn_ptr) (off v : Z) (st : state) :
  fst (capn_write w p off v st) = 0 ->
  (forall a, ~ (data p + off <= a < data p + off + sizeof w) ->
             memory (snd (capn_write w p off v st)) a = memory st a) /\
  (seg p + sizeof_capn_segment <= data p + off \/
   data p + off + sizeof w <= seg p ->
   segments (snd (capn_write w p off v st)) (seg p) = segments st (seg p)).
Proof.
  rewrite capn_write_eq.
  destruct (int_add off (sizeof w) <=? datasz p); cbn [fst snd]; [|discriminate].
  intros _.
  assert (Hframe : forall a, ~ (data p + off <= a < data p + off + sizeof w) ->
            store_bytes (memory st) (data p + off) (le_split (nbytes w) v) a
            = memory st a).
  { intros a Ha. apply store_bytes_outside.
    rewrite length_le_split, <- sizeof_nbytes. exact Ha. }
  split; [exact Hframe|].
  intros Hapart. unfold segments. cbn [memory].
  apply load_segment_ext. intros a Ha. apply Hframe. lia.
Qed.

Lemma capn_write_success_frame_witness :
  let st' := snd (@capn_write big_endian_host W32 sample_ptr 8 3405691582 sample_state) in
  fst (@capn_write big_endian_host W32 sample_ptr 8 3405691582 sample_state) = 0 /\
  (forall a, ~ (data sample_ptr + 8 <= a < data sample_ptr + 8 + sizeof W32) ->
     memory st' a = memory sample_state a) /\
  (seg sample_ptr + @sizeof_capn_segment big_endian_host <= data sample_ptr + 8 \/
   data sample_ptr + 8 + sizeof W32 <= seg sample_ptr ->
   @segments big_endian_host st' (seg sample_ptr)
   = @segments big_endian_host sample_state (seg sample_ptr)).
Proof.
  intros st'. split; [reflexivity|].
  apply (@capn_write_success_frame big_endian_host W32 sample_ptr 8 3405691582 sample_state).
  reflexivity.
Defined.

(** C10 as stated fails for the negative offsets the guard accepts: with the
    segment header in the 72 bytes before the data section,
    [capn_write32(p, -8, 0)] returns 0 and its four bytes are the field [len]
    of the header, which changes from 403769859 to 0. *)
Lemma capn_write_success_changes_header :
  let p := header_adjacent_ptr in
  let st' := snd (@capn_write little_endian_host W32 p (-8) 0 sample_state) in
  fst (@capn_write little_endian_host W32 p (-8) 0 sample_state) = 0 /\
  seg_len (@segments little_endian_host sample_state (seg p)) = 403769859 /\
  seg_len (@segments little_endian_host st' (seg p)) = 0 /\
  @segments little_endian_host st' (seg p) <> @segments little_endian_host sample_state (seg p).
Proof.
  intros p st'.
  assert (H0 : seg_len (@segments little_endian_host sample_state (seg p)) = 403769859)
    by (vm_compute; reflexivity).
  assert (H1 : seg_len (@segments little_endian_host st' (seg p)) = 0)
    by (vm_compute; reflexivity).
  split; [vm_compute; reflexivity|]. split; [exact H0|]. split; [exact H1|].
  intros E. rewrite E, H0 in H1. discriminate H1.
Qed.

(** * Further properties of the accessors *)

(** ** Memory lemmas for fields that overlap or lie apart *)

Lemma nth_load_bytes (m : mem) (n : nat) :
  forall a i d, (i < n)%nat -> nth i (load_bytes m a n) d = m (a + Z.of_nat i).
Proof.
  induction n as [|n IH]; intros a i d Hi; [lia|].
  destruct i as [|i]; cbn [load_bytes nth].
  - rewrite Z.add_0_r. reflexivity.
  - rewrite IH by lia. f_equal. lia.
Qed.

Lemma load_bytes_app (m : mem) (n1 n2 : nat) :
  forall a, load_bytes m a (n1 + n2) =
            load_bytes m a n1 ++ load_bytes m (a + Z.of_nat n1) n2.
Proof.
  induction n1 as [|n1 IH]; intros a.
  - cbn [Nat.add load_bytes app]. rewrite Z.add_0_r. reflexivity.
  - cbn [Nat.add load_bytes app]. rewrite IH. do 3 f_equal. lia.
Qed.

Lemma little_endian_app (l1 l2 : list byte) :
  little_endian (l1 ++ l2) =
  little_endian l1 + 2 ^ (8 * Z.of_nat (length l1)) * little_endian l2.
Proof.
  induction l1 as [|b l1 IH].
  { cbn [app little_endian length]. change (8 * Z.of_nat 0) with 0.
    rewrite Z.pow_0_r. lia. }
  cbn [app little_endian length]. rewrite IH.
  replace (8 * Z.of_nat (S (length l1))) with (8 + 8 * Z.of_nat (length l1)) by lia.
  rewrite Z.pow_add_r by lia. change (2 ^ 8) with 256. ring.
Qed.

Lemma store_bytes_at (bs : list byte) (m : mem) (a x : Z) :
  store_bytes m a bs x =
  if (a <=? x) && (x <? a + Z.of_nat (length bs))
  then nth (Z.to_nat (x - a)) bs Byte.x00
  else m x.
Proof.
  destruct (Z.leb_spec a x); destruct (Z.ltb_spec x (a + Z.of_nat (length bs)));
    cbn [andb]; try (apply store_bytes_outside; lia).
  replace x with (a + Z.of_nat (Z.to_nat (x - a))) at 1 by lia.
  apply store_bytes_inside. lia.
Qed.

Lemma store_loaded_bytes (m : mem) (a : Z) (n : nat) (x : Z) :
  store_bytes m a (load_bytes m a n) x = m x.
Proof.
  rewrite store_bytes_at, length_load_bytes.
  destruct (Z.leb_spec a x); destruct (Z.ltb_spec x (a + Z.of_nat n));
    cbn [andb]; try reflexivity.
  rewrite nth_load_bytes by lia. f_equal. lia.
Qed.

Lemma store_bytes_swap (bs1 bs2 : list byte) (m : mem) (a1 a2 x : Z) :
  a1 + Z.of_nat (length bs1) <= a2 \/ a2 + Z.of_nat (length bs2) <= a1 ->
  store_bytes (store_bytes m a1 bs1) a2 bs2 x =
  store_bytes (store_bytes m a2 bs2) a1 bs1 x.
Proof.
  intros Hdisj. rewrite !store_bytes_at.
  destruct (Z.leb_spec a1 x); destruct (Z.ltb_spec x (a1 + Z.of_nat (length bs1)));
    destruct (Z.leb_spec a2 x); destruct (Z.ltb_spec x (a2 + Z.of_nat (length bs2)));
    cbn [andb]; try reflexivity; lia.
Qed.

Lemma load_stored_slice (n1 : nat) (v : Z) (m : mem) (a : Z) (n2 : nat) :
  forall k, (k + n2 <= n1)%nat ->
  load_bytes (store_bytes m a (le_split n1 v)) (a + Z.of_nat k) n2 =
  le_split n2 (Z.shiftr v (8 * Z.of_nat k)).
Proof.
  induction n2 as [|n2 IH]; intros k Hk; [reflexivity|].
  change (le_split (S n2) (Z.shiftr v (8 * Z.of_nat k)))
    with (byte.of_Z (Z.shiftr v (8 * Z.of_nat k))
          :: le_split n2 (Z.shiftr (Z.shiftr v (8 * Z.of_nat k)) 8)).
  cbn [load_bytes]. f_equal.
  - rewrite (store_bytes_inside _ m a k Byte.x00) by (rewrite length_le_split; lia).
    apply nth_error_nth. apply nth_error_le_split. lia.
  - replace (a + Z.of_nat k + 1) with (a + Z.of_nat (S k)) by lia.
    rewrite IH by lia. rewrite Z.shiftr_shiftr by lia. do 2 f_equal. lia.
Qed.

Lemma of_bytes_range {h : Host} (bs : list byte) :
  0 <= of_bytes bs < 2 ^ (8 * Z.of_nat (length bs)).
Proof.
  unfold of_bytes. destruct big_endian.
  - rewrite <- (length_rev bs). apply le_combine_bound.
  - apply le_combine_bound.
Qed.

Lemma capn_flip_bytes {h : Host} (w : width) (v : Z) :
  0 <= v < 2 ^ (8 * sizeof w) ->
  capn_flip w v = of_bytes (le_split (nbytes w) v).
Proof.
  intros Hv. destruct w; cbn [capn_flip nbytes].
  - unfold capn_flip8. rewrite <- to_bytes_single, of_bytes_to_bytes.
    symmetry. apply Z.mod_small. exact Hv.
  - apply capn_flip16_bytes.
  - apply capn_flip32_bytes.
  - apply capn_flip64_bytes.
Qed.

Lemma byte_of_Z_land (z : Z) : byte.unsigned (byte.of_Z z) = Z.land z 255.
Proof.
  rewrite byte.unsigned_of_Z. unfold byte.wrap.
  rewrite <- Z.land_ones by lia. reflexivity.
Qed.

Lemma byte_of_le_combine (bs : list byte) (i : nat) :
  (i < length bs)%nat ->
  Z.land (Z.shiftr (le_combine bs) (8 * Z.of_nat i)) 255 =
  byte.unsigned (nth i bs Byte.x00).
Proof.
  intros Hi. rewrite <- byte_of_Z_land. f_equal.
  pose proof (nth_error_le_split i (length bs) (le_combine bs) Hi) as H.
  rewrite split_le_combine in H.
  symmetry. apply nth_error_nth. exact H.
Qed.

(** ** Byte order *)

(** X1. On either host each flip is an involution on the values of its type,
    and its result is a value of that type. *)
Theorem capn_flip_involutive {h : Host} (w : width) (v : Z) :
  0 <= v < 2 ^ (8 * sizeof w) ->
  capn_flip w (capn_flip w v) = v /\
  0 <= capn_flip w v < 2 ^ (8 * sizeof w).
Proof.
  intros Hv.
  assert (Hrange : 0 <= capn_flip w v < 2 ^ (8 * sizeof w)).
  { rewrite capn_flip_bytes by exact Hv.
    pose proof (of_bytes_range (le_split (nbytes w) v)) as H.
    rewrite length_le_split, <- sizeof_nbytes in H. exact H. }
  split; [|exact Hrange].
  rewrite (capn_flip_bytes w (capn_flip w v)) by exact Hrange.
  rewrite (capn_flip_bytes w v) by exact Hv.
  pose proof (of_bytes_le_split_of_bytes (le_split (nbytes w) v)) as H.
  rewrite length_le_split in H. rewrite H, le_combine_split.
  apply Z.mod_small. rewrite <- sizeof_nbytes, Z.mul_comm. exact Hv.
Qed.

Lemma capn_flip_involutive_witness :
  0 <= 3405691582 < 2 ^ (8 * sizeof W32) /\
  @capn_flip big_endian_host W32 (@capn_flip big_endian_host W32 3405691582)
    = 3405691582 /\
  0 <= @capn_flip big_endian_host W32 3405691582 < 2 ^ (8 * sizeof W32).
Proof.
  split; [cbn; lia|].
  apply (@capn_flip_involutive big_endian_host W32 3405691582). cbn; lia.
Defined.

(** X2. On a little-endian host a flip returns its argument; on a big-endian
    host it reverses the bytes: byte [i] of the result is byte [N/8 - 1 - i]
    of the argument. *)
Theorem capn_flip_by_host (w : width) (v : Z) :
  0 <= v < 2 ^ (8 * sizeof w) ->
  @capn_flip little_endian_host w v = v /\
  forall i, 0 <= i < sizeof w ->
    Z.land (Z.shiftr (@capn_flip big_endian_host w v) (8 * i)) 255 =
    Z.land (Z.shiftr v (8 * (sizeof w - 1 - i))) 255.
Proof.
  intros Hv. split.
  - rewrite capn_flip_bytes by exact Hv. unfold of_bytes. cbn [big_endian little_endian_host].
    rewrite le_combine_split. apply Z.mod_small.
    rewrite <- sizeof_nbytes, Z.mul_comm. exact Hv.
  - intros i Hi. rewrite capn_flip_bytes by exact Hv.
    unfold of_bytes. cbn [big_endian big_endian_host].
    rewrite sizeof_nbytes in Hi |- *.
    rewrite <- (Z2Nat.id i) at 1 by lia.
    rewrite byte_of_le_combine by (rewrite length_rev, length_le_split; lia).
    rewrite rev_nth by (rewrite length_le_split; lia).
    rewrite length_le_split.
    erewrite nth_error_nth by (apply nth_error_le_split; lia).
    rewrite byte_of_Z_land. do 3 f_equal. lia.
Qed.

Lemma capn_flip_by_host_witness :
  0 <= 4660 < 2 ^ (8 * sizeof W16) /\
  @capn_flip little_endian_host W16 4660 = 4660 /\
  forall i, 0 <= i < sizeof W16 ->
    Z.land (Z.shiftr (@capn_flip big_endian_host W16 4660) (8 * i)) 255 =
    Z.land (Z.shiftr 4660 (8 * (sizeof W16 - 1 - i))) 255.
Proof.
  split; [cbn; lia|].
  apply (capn_flip_by_host W16 4660). cbn; lia.
Defined.

(** X3. The accessors do not depend on the byte order of the host: on any two
    hosts the integer, float and double reads and writes return the same
    result and the same state. *)
Theorem accessors_host_independent (h1 h2 : Host)
    (p : capn_ptr) (off : Z) (st : state) :
  (forall w, @capn_read h1 w p off st = @capn_read h2 w p off st) /\
  (forall w v, @capn_write h1 w p off v st = @capn_write h2 w p off v st) /\
  (forall def, @capn_read_float h1 p off def st = @capn_read_float h2 p off def st) /\
  (forall f def, @capn_write_float h1 p off f def st = @capn_write_float h2 p off f def st) /\
  (forall def, @capn_read_double h1 p off def st = @capn_read_double h2 p off def st) /\
  (forall f def, @capn_write_double h1 p off f def st = @capn_write_double h2 p off f def st).
Proof.
  split; [|split; [|split; [|split; [|split]]]].
  - intros w. rewrite !capn_read_eq. reflexivity.
  - intros w v. rewrite !capn_write_eq. reflexivity.
  - intros def. rewrite !capn_read_float_eq, !capn_read_eq. reflexivity.
  - intros f def. rewrite !capn_write_float_eq, !capn_write_eq. reflexivity.
  - intros def. rewrite !capn_read_double_eq, !capn_read_eq. reflexivity.
  - intros f def. rewrite !capn_write_double_eq, !capn_write_eq. reflexivity.
Qed.

(** ** Reads *)

(** X4. What a read returns is a value of its type: it lies in
    [0, 2^N), in bounds or not. *)
Theorem capn_read_range {h : Host} (w : width) (p : capn_ptr) (off : Z) (st : state) :
  0 <= fst (capn_read w p off st) < 2 ^ (8 * sizeof w).
Proof.
  rewrite capn_read_eq. cbn [fst].
  destruct (int_add off (sizeof w) <=? datasz p).
  - pose proof (le_combine_bound (load_bytes (memory st) (data p + off) (nbytes w))) as H.
    rewrite length_load_bytes, <- sizeof_nbytes in H. exact H.
  - split; [lia|]. apply Z.pow_pos_nonneg; destruct w; cbn; lia.
Qed.

(** X5. A write does not disturb a field that lies apart from the bytes it
    targets: a read of such a field, through the same or another pointer,
    returns what it returned before the write. *)
Theorem read_after_disjoint_write {h : Host}
    (w1 w2 : width) (p1 p2 : capn_ptr) (off1 off2 v : Z) (st : state) :
  data p1 + off1 + sizeof w1 <= data p2 + off2 \/
  data p2 + off2 + sizeof w2 <= data p1 + off1 ->
  fst (capn_read w2 p2 off2 (snd (capn_write w1 p1 off1 v st))) =
  fst (capn_read w2 p2 off2 st).
Proof.
  intros Hapart. rewrite capn_write_eq, !capn_read_eq.
  destruct (int_add off1 (sizeof w1) <=? datasz p1); [|reflexivity].
  cbn [fst snd memory]. destruct (int_add off2 (sizeof w2) <=? datasz p2); [|reflexivity].
  f_equal. apply load_bytes_ext. intros x Hx.
  apply store_bytes_outside. rewrite length_le_split.
  rewrite <- !sizeof_nbytes in *. lia.
Qed.

Lemma read_after_disjoint_write_witness :
  (data sample_ptr + 8 + sizeof W32 <= data sample_ptr + 12 \/
   data sample_ptr + 12 + sizeof W16 <= data sample_ptr + 8) /\
  fst (@capn_read little_endian_host W16 sample_ptr 12
         (snd (@capn_write little_endian_host W32 sample_ptr 8 3405691582 sample_state))) =
  fst (@capn_read little_endian_host W16 sample_ptr 12 sample_state).
Proof.
  split; [left; cbn; lia|].
  apply (@read_after_disjoint_write little_endian_host W32 W16 sample_ptr sample_ptr
           8 12 3405691582 sample_state).
  left; cbn; lia.
Defined.

(** X7. Reading inside a field just written: after an in-bounds write of [v]
    at [off], a read of a width that fits in the written field at byte [k] of
    it returns the corresponding bytes of [v], that is
    [(v >> 8k) mod 2^N']. *)
Theorem read_within_written_field {h : Host}
    (w1 w2 : width) (p : capn_ptr) (off k v : Z) (st : state) :
  0 <= k -> k + sizeof w2 <= sizeof w1 ->
  off + sizeof w1 <= datasz p ->
  fst (capn_read w2 p (off + k) (snd (capn_write w1 p off v st))) =
  Z.shiftr v (8 * k) mod 2 ^ (8 * sizeof w2).
Proof.
  intros Hk Hfit Hin. rewrite capn_write_eq, capn_read_eq. repeat bounds_guard.
  cbn [fst snd memory].
  replace (data p + (off + k)) with (data p + off + Z.of_nat (Z.to_nat k)) by lia.
  rewrite !sizeof_nbytes in Hfit.
  rewrite load_stored_slice by lia.
  rewrite le_combine_split, Z2Nat.id, sizeof_nbytes by lia.
  do 2 f_equal. lia.
Qed.

Lemma read_within_written_field_witness :
  (0 <= 4 /\ 4 + sizeof W16 <= sizeof W64 /\ 8 + sizeof W64 <= datasz sample_ptr) /\
  fst (@capn_read big_endian_host W16 sample_ptr (8 + 4)
         (snd (@capn_write big_endian_host W64 sample_ptr 8 81985529216486895 sample_state))) =
  Z.shiftr 81985529216486895 (8 * 4) mod 2 ^ (8 * sizeof W16).
Proof.
  split; [cbn; lia|].
  apply (@read_within_written_field big_endian_host W64 W16 sample_ptr 8 4
           81985529216486895 sample_state); cbn; lia.
Defined.

(** X8. A wide read is made of its two halves: in bounds, the value read at
    [off] is the value of the lower half at [off] plus [2^(N/2)] times the
    value of the upper half at [off + N/16]. *)
Theorem wide_read_from_halves {h : Host}
    (ww wn : width) (p : capn_ptr) (off : Z) (st : state) :
  sizeof ww = 2 * sizeof wn ->
  off + sizeof ww <= datasz p ->
  fst (capn_read ww p off st) =
  fst (capn_read wn p off st) +
  2 ^ (8 * sizeof wn) * fst (capn_read wn p (off + sizeof wn) st).
Proof.
  intros Hhalf Hin. pose proof (sizeof_nbytes wn) as Hn.
  assert (Hsum : nbytes ww = (nbytes wn + nbytes wn)%nat)
    by (rewrite !sizeof_nbytes in Hhalf; lia).
  rewrite !capn_read_eq. cbn [fst]. repeat bounds_guard.
  rewrite Hsum, load_bytes_app, !le_combine_little_endian, little_endian_app.
  rewrite length_load_bytes, <- Hn. do 4 f_equal. lia.
Qed.

Lemma wide_read_from_halves_witness :
  (sizeof W64 = 2 * sizeof W32 /\ 8 + sizeof W64 <= datasz sample_ptr) /\
  fst (@capn_read big_endian_host W64 sample_ptr 8 sample_state) =
  fst (@capn_read big_endian_host W32 sample_ptr 8 sample_state) +
  2 ^ (8 * sizeof W32) *
    fst (@capn_read big_endian_host W32 sample_ptr (8 + sizeof W32) sample_state).
Proof.
  split; [cbn; lia|].
  apply (@wide_read_from_halves big_endian_host W64 W32 sample_ptr 8 sample_state);
    cbn; lia.
Defined.

(** ** Writes *)

(** X6. Writes to fields that lie apart commute: in either order each write
    returns the same result and the final memory and segment headers are the
    same. *)
Theorem disjoint_writes_commute {h : Host}
    (w1 w2 : width) (p1 p2 : capn_ptr) (off1 off2 v1 v2 : Z) (st : state) :
  data p1 + off1 + sizeof w1 <= data p2 + off2 \/
  data p2 + off2 + sizeof w2 <= data p1 + off1 ->
  fst (capn_write w2 p2 off2 v2 (snd (capn_write w1 p1 off1 v1 st))) =
    fst (capn_write w2 p2 off2 v2 st) /\
  fst (capn_write w1 p1 off1 v1 (snd (capn_write w2 p2 off2 v2 st))) =
    fst (capn_write w1 p1 off1 v1 st) /\
  segments (snd (capn_write w2 p2 off2 v2 (snd (capn_write w1 p1 off1 v1 st)))) =
    segments (snd (capn_write w1 p1 off1 v1 (snd (capn_write w2 p2 off2 v2 st)))) /\
  forall a,
    memory (snd (capn_write w2 p2 off2 v2 (snd (capn_write w1 p1 off1 v1 st)))) a =
    memory (snd (capn_write w1 p1 off1 v1 (snd (capn_write w2 p2 off2 v2 st)))) a.
Proof.
  intros Hapart.
  assert (Hmem : forall a,
    memory (snd (capn_write w2 p2 off2 v2 (snd (capn_write w1 p1 off1 v1 st)))) a =
    memory (snd (capn_write w1 p1 off1 v1 (snd (capn_write w2 p2 off2 v2 st)))) a).
  { rewrite !capn_write_eq.
    destruct (int_add off1 (sizeof w1) <=? datasz p1);
      destruct (int_add off2 (sizeof w2) <=? datasz p2);
      cbn [fst snd memory]; try reflexivity.
    intros a. apply store_bytes_swap.
    rewrite !length_le_split, <- !sizeof_nbytes. lia. }
  split; [|split; [|split; [|exact Hmem]]].
  - rewrite !capn_write_eq.
    destruct (int_add off2 (sizeof w2) <=? datasz p2); reflexivity.
  - rewrite !capn_write_eq.
    destruct (int_add off1 (sizeof w1) <=? datasz p1); reflexivity.
  - f_equal. apply state_ext. exact Hmem.
Qed.

Lemma disjoint_writes_commute_witness :
  (data sample_ptr + 0 + sizeof W64 <= data sample_ptr + 8 \/
   data sample_ptr + 8 + sizeof W32 <= data sample_ptr + 0) /\
  forall a,
    memory (snd (@capn_write little_endian_host W32 sample_ptr 8 3405691582
              (snd (@capn_write little_endian_host W64 sample_ptr 0 81985529216486895
                      sample_state)))) a =
    memory (snd (@capn_write little_endian_host W64 sample_ptr 0 81985529216486895
              (snd (@capn_write little_endian_host W32 sample_ptr 8 3405691582
                      sample_state)))) a.
Proof.
  split; [left; cbn; lia|].
  apply (@disjoint_writes_commute little_endian_host W64 W32 sample_ptr sample_ptr
           0 8 81985529216486895 3405691582 sample_state).
  left; cbn; lia.
Defined.

(** X9. Writing back the value just read changes nothing: every byte of memory
    and every segment header is as before. *)
Theorem write_back_read {h : Host} (w : width) (p : capn_ptr) (off : Z) (st : state) :
  segments (snd (capn_write w p off (fst (capn_read w p off st)) st)) = segments st /\
  forall a,
    memory (snd (capn_write w p off (fst (capn_read w p off st)) st)) a = memory st a.
Proof.
  assert (Hmem : forall a,
    memory (snd (capn_write w p off (fst (capn_read w p off st)) st)) a = memory st a).
  { rewrite capn_write_eq, capn_read_eq. cbn [fst].
    destruct (int_add off (sizeof w) <=? datasz p); cbn [snd memory];
      try reflexivity.
    intros a.
    pose proof (split_le_combine (load_bytes (memory st) (data p + off) (nbytes w))) as H.
    rewrite length_load_bytes in H. rewrite H. apply store_loaded_bytes. }
  split; [|exact Hmem].
  f_equal. apply state_ext. exact Hmem.
Qed.

(** ** Float and double accessors *)

Lemma lxor_cancel_small (a b k : Z) :
  0 <= k -> 0 <= a < 2 ^ k -> 0 <= b < 2 ^ k ->
  Z.lxor b (Z.lxor a b mod 2 ^ k) mod 2 ^ k = a.
Proof.
  intros Hk Ha Hb. pose proof (lxor_cancel_mod a b k Hk) as H.
  rewrite !(Z.mod_small a), !(Z.mod_small b) in H by assumption. exact H.
Qed.

Lemma lxor_small (a b k : Z) :
  0 <= k -> 0 <= a < 2 ^ k -> 0 <= b < 2 ^ k ->
  Z.lxor a b mod 2 ^ k = Z.lxor a b.
Proof.
  intros Hk Ha Hb. rewrite lxor_mod_pow2 by exact Hk.
  rewrite (Z.mod_small a), (Z.mod_small b) by assumption. reflexivity.
Qed.

Lemma zeroed_field_reads_zero {h : Host} (w : width) (p : capn_ptr) (off : Z) (st : state) :
  (forall i, 0 <= i < 8 -> memory st (data p + off + i) = Byte.x00) ->
  fst (capn_read w p off st) = 0.
Proof.
  intros Hzero. rewrite capn_read_eq. cbn [fst].
  destruct (int_add off (sizeof w) <=? datasz p); [|reflexivity].
  rewrite (load_bytes_ext (memory st) (fun _ => Byte.x00)).
  - destruct w; reflexivity.
  - intros x Hx. replace x with (data p + off + (x - (data p + off))) by lia.
    apply Hzero. destruct w; cbn in Hx; lia.
Qed.

(** X10. [capn_write_float] and [capn_write_double] fail as the integer
    writes do.  In bounds they return 0 and change at most the 4 (8) bytes of
    the field; out of bounds, when [off + 4] ([off + 8]) does not exceed
    [INT_MAX], they return -1 and leave the state as it was. *)
Theorem float_double_write_result {h : Host}
    (p : capn_ptr) (off : Z) (f def : float) (g defd : double) (st : state) :
  (off + 4 <= datasz p ->
     fst (capn_write_float p off f def st) = 0 /\
     forall a, ~ (data p + off <= a < data p + off + 4) ->
       memory (snd (capn_write_float p off f def st)) a = memory st a) /\
  (off + 4 <= int_max -> off + 4 > datasz p ->
     capn_write_float p off f def st = (-1, st)) /\
  (off + 8 <= datasz p ->
     fst (capn_write_double p off g defd st) = 0 /\
     forall a, ~ (data p + off <= a < data p + off + 8) ->
       memory (snd (capn_write_double p off g defd st)) a = memory st a) /\
  (off + 8 <= int_max -> off + 8 > datasz p ->
     capn_write_double p off g defd st = (-1, st)).
Proof.
  rewrite capn_write_float_eq, capn_write_double_eq, !capn_write_eq.
  cbn [sizeof nbytes].
  split; [|split; [|split]].
  - intros Hin. bounds_guard. cbn [fst snd memory]. split; [reflexivity|].
    intros a Ha. apply store_bytes_outside. rewrite length_le_split. exact Ha.
  - intros Hint Hoob. bounds_guard. reflexivity.
  - intros Hin. bounds_guard. cbn [fst snd memory]. split; [reflexivity|].
    intros a Ha. apply store_bytes_outside. rewrite length_le_split. exact Ha.
  - intros Hint Hoob. bounds_guard. reflexivity.
Qed.

Lemma float_double_write_result_witness :
  let f := {| float_bits := 1078530011 |} in
  let g := {| double_bits := 4614256656552045848 |} in
  (12 + 4 <= datasz sample_ptr /\
   12 + 8 <= int_max /\ 12 + 8 > datasz sample_ptr) /\
  fst (@capn_write_float little_endian_host sample_ptr 12 f f sample_state) = 0 /\
  @capn_write_double little_endian_host sample_ptr 12 g g sample_state
    = (-1, sample_state).
Proof.
  intros f g. split; [cbn; lia|].
  destruct (@float_double_write_result little_endian_host sample_ptr 12 f f g g
              sample_state) as (Hf & _ & _ & Hd).
  split; [apply Hf | apply Hd]; cbn; lia.
Defined.

(** X11. A zeroed word reads as the defaults: if the eight bytes at
    [p.data + off] are zero, every integer read at [off] returns 0 and the
    float and double reads return their default, bit for bit. *)
Theorem zeroed_field_reads_default {h : Host}
    (p : capn_ptr) (off : Z) (deff : float) (defd : double) (st : state) :
  (forall i, 0 <= i < 8 -> memory st (data p + off + i) = Byte.x00) ->
  float_ok deff -> double_ok defd ->
  (forall w, fst (capn_read w p off st) = 0) /\
  fst (capn_read_float p off deff st) = deff /\
  fst (capn_read_double p off defd st) = defd.
Proof.
  unfold float_ok, double_ok. intros Hzero Hf Hd.
  split; [intros w; apply zeroed_field_reads_zero; exact Hzero|]. split.
  - rewrite capn_read_float_eq, zeroed_field_reads_zero by exact Hzero. cbn [fst].
    rewrite Z.lxor_0_r, Z.mod_mod by (apply Z.pow_nonzero; lia).
    rewrite Z.mod_small by exact Hf. destruct deff; reflexivity.
  - rewrite capn_read_double_eq, zeroed_field_reads_zero by exact Hzero. cbn [fst].
    rewrite Z.lxor_0_r, Z.mod_mod by (apply Z.pow_nonzero; lia).
    rewrite Z.mod_small by exact Hd. destruct defd; reflexivity.
Qed.

Lemma zeroed_field_reads_default_witness :
  let st := {| memory := fun _ => Byte.x00 |} in
  let deff := {| float_bits := 1078530011 |} in
  let defd := {| double_bits := 4614256656552045848 |} in
  ((forall i, 0 <= i < 8 -> memory st (data sample_ptr + 8 + i) = Byte.x00) /\
   float_ok deff /\ double_ok defd) /\
  (forall w, fst (@capn_read big_endian_host w sample_ptr 8 st) = 0) /\
  fst (@capn_read_float big_endian_host sample_ptr 8 deff st) = deff /\
  fst (@capn_read_double big_endian_host sample_ptr 8 defd st) = defd.
Proof.
  intros st deff defd.
  split; [split; [reflexivity | unfold float_ok, double_ok; cbn; lia]|].
  apply (@zeroed_field_reads_default big_endian_host sample_ptr 8 deff defd st);
    [reflexivity | unfold float_ok; cbn; lia | unfold double_ok; cbn; lia].
Defined.

(** X12. What [capn_write_float] leaves in the field is the XOR of the bit
    patterns of the value and the default, so that the default itself is
    stored as zero. *)
Theorem capn_write_float_stores_xor {h : Host}
    (p : capn_ptr) (off : Z) (f def : float) (st : state) :
  off + 4 <= datasz p ->
  float_ok f -> float_ok def ->
  fst (capn_read32 p off (snd (capn_write_float p off f def st))) =
    Z.lxor (float_bits f) (float_bits def) /\
  fst (capn_read32 p off (snd (capn_write_float p off def def st))) = 0.
Proof.
  unfold float_ok. intros Hin Hf Hdef.
  change (capn_read32 p off) with (capn_read W32 p off).
  rewrite !capn_write_float_eq, !read_after_write_in_bounds by exact Hin.
  change (8 * sizeof W32) with 32.
  rewrite !(Z.mod_small (float_bits f)), !(Z.mod_small (float_bits def)) by assumption.
  rewrite Z.lxor_nilpotent. split; [|reflexivity].
  apply lxor_small; [lia | assumption | assumption].
Qed.

Lemma capn_write_float_stores_xor_witness :
  let f := {| float_bits := 1078530011 |} in
  let def := {| float_bits := 3212836864 |} in
  (4 + 4 <= datasz sample_ptr /\ float_ok f /\ float_ok def) /\
  fst (@capn_read32 little_endian_host sample_ptr 4
         (snd (@capn_write_float little_endian_host sample_ptr 4 f def sample_state))) =
    Z.lxor (float_bits f) (float_bits def) /\
  fst (@capn_read32 little_endian_host sample_ptr 4
         (snd (@capn_write_float little_endian_host sample_ptr 4 def def sample_state))) = 0.
Proof.
  intros f def. split; [unfold float_ok; cbn; lia|].
  apply (@capn_write_float_stores_xor little_endian_host sample_ptr 4 f def sample_state);
    unfold float_ok; cbn; lia.
Defined.

(** X13. The read side of the double accessor undoes an XOR with the default:
    after [capn_write64] has stored the XOR of the bit patterns of [f] and
    [def], [capn_read_double] with default [def] returns [f]. *)
Theorem capn_read_double_after_write64 {h : Host}
    (p : capn_ptr) (off : Z) (f def : double) (st : state) :
  off + 8 <= datasz p ->
  double_ok f -> double_ok def ->
  fst (capn_read_double p off def
         (snd (capn_write64 p off (Z.lxor (double_bits f) (double_bits def)) st))) = f.
Proof.
  unfold double_ok. intros Hin Hf Hdef.
  change (capn_write64 p off) with (capn_write W64 p off).
  rewrite capn_read_double_eq. cbn [fst].
  rewrite read_after_write_in_bounds by exact Hin.
  change (8 * sizeof W64) with 64.
  rewrite (Z.mod_small (double_bits def)) by exact Hdef.
  rewrite lxor_cancel_small by (lia || assumption).
  destruct f; reflexivity.
Qed.

Lemma capn_read_double_after_write64_witness :
  let f := {| double_bits := 4607182418800017408 |} in
  let def := {| double_bits := 4611686018427387904 |} in
  (0 + 8 <= datasz sample_ptr /\ double_ok f /\ double_ok def) /\
  fst (@capn_read_double big_endian_host sample_ptr 0 def
         (snd (@capn_write64 big_endian_host sample_ptr 0
                 (Z.lxor (double_bits f) (double_bits def)) sample_state))) = f.
Proof.
  intros f def. split; [unfold double_ok; cbn; lia|].
  apply (@capn_read_double_after_write64 big_endian_host sample_ptr 0 f def sample_state);
    unfold double_ok; cbn; lia.
Defined.

(** X14. As written, [capn_write_double] stores zero whatever the value and
    the default: in bounds it returns 0, the field then reads as 0 with
    [capn_read64], and [capn_read_double] returns whichever default it is
    given. *)
Theorem capn_write_double_stores_zero {h : Host}
    (p : capn_ptr) (off : Z) (f def def' : double) (st : state) :
  off + 8 <= datasz p ->
  double_ok def' ->
  fst (capn_write_double p off f def st) = 0 /\
  fst (capn_read64 p off (snd (capn_write_double p off f def st))) = 0 /\
  fst (capn_read_double p off def' (snd (capn_write_double p off f def st))) = def'.
Proof.
  unfold double_ok. intros Hin Hdef.
  assert (Hraw : fst (capn_read W64 p off (snd (capn_write_double p off f def st))) = 0).
  { rewrite capn_write_double_eq, read_after_write_in_bounds by exact Hin.
    apply Z.mod_0_l. apply Z.pow_nonzero; cbn; lia. }
  split; [|split].
  - rewrite capn_write_double_eq, capn_write_eq. cbn [sizeof]. bounds_guard.
    reflexivity.
  - exact Hraw.
  - rewrite capn_read_double_eq, Hraw. cbn [fst].
    rewrite Z.lxor_0_r, Z.mod_mod by (apply Z.pow_nonzero; lia).
    rewrite Z.mod_small by exact Hdef. destruct def'; reflexivity.
Qed.

Lemma capn_write_double_stores_zero_witness :
  let f := {| double_bits := 4607182418800017408 |} in
  let def := {| double_bits := 4611686018427387904 |} in
  let def' := {| double_bits := 4614256656552045848 |} in
  let st' := snd (@capn_write_double little_endian_host sample_ptr 8 f def sample_state) in
  (8 + 8 <= datasz sample_ptr /\ double_ok def') /\
  fst (@capn_write_double little_endian_host sample_ptr 8 f def sample_state) = 0 /\
  fst (@capn_read64 little_endian_host sample_ptr 8 st') = 0 /\
  fst (@capn_read_double little_endian_host sample_ptr 8 def' st') = def'.
Proof.
  intros f def def' st'. split; [unfold double_ok; cbn; lia|].
  apply (@capn_write_double_stores_zero little_endian_host sample_ptr 8 f def def'
           sample_state); unfold double_ok; cbn; lia.
Defined.
